(** * SharpBot storage manager: dotted-path accessors, adapters, registry

    A shallow embedding of [src/managers/storage.js] and the properties its
    specification states about it.

    Modelling decisions.
    - JavaScript values are [value]s; objects live in a [heap] and are
      referred to by location, so that in-place mutation and sharing are
      visible.  A new object takes the next free location.  Adapter
      instances live in a store of their own and are referred to by index.
    - An object is the finite map of its own string-keyed properties.
      Properties inherited from the built-in prototypes ([constructor],
      [toString], ...) and arrays are outside the fragment modelled.
    - Numbers are integers; the code looks at a number only through
      [typeof] and truthiness.  A character of a Rocq [string] stands for
      one code unit of a JavaScript string.
    - The module is not in strict mode, so assigning a property of a
      primitive is silently ignored.
    - [fs-extra], [path] and the console are external: the first two are
      interfaces ([FsExtra], [PathModule]); console output is a list of
      messages kept in the program state.
    - A heap holds a document when it is closed ([heap_closed]) and has no
      reference cycle ([acyclic]), as the result of parsing JSON is. *)

From Stdlib Require Import Ascii.
From stdpp Require Import base strings list gmap.

(** ** Values and the object heap *)

Abbreviation loc := nat.

Inductive value :=
  | VUndefined
  | VNull
  | VBool (b : bool)
  | VNumber (n : Z)
  | VString (s : string)
  | VObject (l : loc).

Global Instance value_eq_dec : EqDecision value.
Proof. solve_decision. Defined.

Global Instance value_inhabited : Inhabited value := populate VUndefined.

Abbreviation object := (gmap string value).
Abbreviation heap := (list (gmap string value)).

(** The result of the [typeof] operator. *)
Inductive js_type := TUndefined | TObject | TBoolean | TNumber | TString.

Global Instance js_type_eq_dec : EqDecision js_type.
Proof. solve_decision. Defined.

Definition typeof (v : value) : js_type :=
  match v with
  | VUndefined => TUndefined
  | VNull => TObject
  | VBool _ => TBoolean
  | VNumber _ => TNumber
  | VString _ => TString
  | VObject _ => TObject
  end.

(** ToBoolean, as used by [||]. *)
Definition truthy (v : value) : bool :=
  match v with
  | VUndefined | VNull => false
  | VBool b => b
  | VNumber n => bool_decide (n ≠ 0%Z)
  | VString s => bool_decide (s ≠ EmptyString)
  | VObject _ => true
  end.

(** ** Canonical array indices

    A property key is an array index when it is the decimal numeral,
    without leading zeros, of an integer below [2^32 - 1].  Such keys name
    the characters of a string and come first when the keys of an object are
    enumerated. *)

Definition digit_of (c : ascii) : option N :=
  let n := Ascii.N_of_ascii c in
  if decide (48 ≤ n ∧ n ≤ 57)%N then Some (n - 48)%N else None.

Fixpoint digits_value (acc : N) (s : string) : option N :=
  match s with
  | EmptyString => Some acc
  | String c r =>
      match digit_of c with
      | Some d => digits_value (acc * 10 + d)%N r
      | None => None
      end
  end.

Definition parse_index (s : string) : option N :=
  match s with
  | EmptyString => None
  | String "0"%char EmptyString => Some 0%N
  | String "0"%char _ => None
  | _ =>
      match digits_value 0 s with
      | Some n => if decide (n < 4294967295)%N then Some n else None
      | None => None
      end
  end.

(** ** Property access *)

(** The own property [key] of the object at [l]; [undefined] when there is
    none. *)
Definition own_property (h : heap) (l : loc) (key : string) : value :=
  default VUndefined (h !! l ≫= (.!! key)).

(** The own properties of a primitive string: [length] and its characters. *)
Definition string_property (s : string) (key : string) : value :=
  if decide (key = "length") then VNumber (Z.of_nat (String.length s))
  else
    match parse_index key with
    | Some i =>
        match String.get (N.to_nat i) s with
        | Some c => VString (String c EmptyString)
        | None => VUndefined
        end
    | None => VUndefined
    end.

(** [property h v key] is what the expression [v[key]] evaluates to when [v]
    is neither [null] nor [undefined]. *)
Definition property (h : heap) (v : value) (key : string) : value :=
  match v with
  | VObject l => own_property h l key
  | VString s => string_property s key
  | _ => VUndefined
  end.

(** ** Computations: state and exceptions *)

Inductive exn :=
  | TypeError (msg : string)
  | Error (msg : string)
  (** the [TypeError] the engine raises when a property of [null] or
      [undefined] is accessed; its message is engine specific *)
  | EngineTypeError (key : string)
  (** an exception raised inside [fs-extra]: an I/O or JSON syntax error *)
  | FsError (file : string).

Inductive result (A : Type) :=
  | Ret (a : A)
  | Throw (e : exn).
Arguments Ret {A} a.
Arguments Throw {A} e.

(** A computation over a state [S]: it returns or throws, and in both cases
    leaves a state behind. *)
Definition Comp (S A : Type) : Type := S → result A * S.

Global Instance comp_ret {S} : MRet (Comp S) := λ A a s, (Ret a, s).

Global Instance comp_bind {S} : MBind (Comp S) := λ A B f m s,
  match m s with
  | (Ret a, s') => f a s'
  | (Throw e, s') => (Throw e, s')
  end.

Definition throw {S A} (e : exn) : Comp S A := λ s, (Throw e, s).

(** Reading a component of the state, and changing the state. *)
Definition gets {S A} (f : S → A) : Comp S A := λ s, (Ret (f s), s).
Definition modify {S} (f : S → S) : Comp S unit := λ s, (Ret (), f s).

(** [try { m } catch (error) { handler }] *)
Definition try_catch {S A} (m : Comp S A) (handler : exn → Comp S A)
  : Comp S A :=
  λ s,
    match m s with
    | (Ret a, s') => (Ret a, s')
    | (Throw e, s') => handler e s'
    end.

(** [current[key]] *)
Definition read (current : value) (key : string) : Comp heap value := λ h,
  match current with
  | VUndefined | VNull => (Throw (EngineTypeError key), h)
  | _ => (Ret (property h current key), h)
  end.

(** [current[key] = v]; on a primitive the assignment is dropped.  (A
    location outside the heap, which a closed heap never holds, has no
    object to assign to.) *)
Definition write (current : value) (key : string) (v : value)
  : Comp heap unit := λ h,
  match current with
  | VUndefined | VNull => (Throw (EngineTypeError key), h)
  | VObject l => (Ret (), alter (<[key := v]>) l h)
  | _ => (Ret (), h)
  end.

(** The object literal [{}]. *)
Definition new_object : Comp heap value := λ h,
  (Ret (VObject (length h)), h ++ [∅]).

(** ** [String.prototype.split] on the pattern [/\./g] *)

Fixpoint split (s : string) : list string :=
  match s with
  | EmptyString => [EmptyString]
  | String c r =>
      if decide (c = "."%char) then EmptyString :: split r
      else
        match split r with
        | seg :: segs => String c seg :: segs
        | [] => [String c EmptyString]
        end
  end.

(** ** The path accessors [set] and [get] *)

(** The loop of [set] over [split[0 .. length - 2]]; it returns the final
    [current]. *)
Fixpoint set_loop (current : value) (keys : list string) : Comp heap value :=
  match keys with
  | [] => mret current
  | key :: keys' =>
      next ← read current key;
      current' ← (if truthy next then mret next
                  else (o ← new_object; write current key o;; mret o));
      set_loop current' keys'
  end.

(** The loop followed by the assignment [current[last] = v]. *)
Definition set_from (current : value) (keys : list string) (last : string)
    (v : value) : Comp heap unit :=
  current ← set_loop current keys;
  write current last v.

Definition set (object keyPath v : value) : Comp heap unit :=
  if decide (typeof object ≠ TObject) then
    throw (TypeError "object must be an object")
  else
    match keyPath with
    | VString keyPath =>
        let split := split keyPath in
        set_from object (removelast split) (List.last split EmptyString) v
    | _ => throw (TypeError "keyPath must be a string")
    end.

(** The loop of [get]; [path] accumulates the keys met so far, without
    separators. *)
Fixpoint get_loop (current : value) (path : string) (keys : list string)
  : Comp heap value :=
  match keys with
  | [] => mret current
  | key :: keys' =>
      next ← read current key;
      let path := path +:+ key in
      if decide (typeof next ≠ TObject) then
        throw (TypeError ("value at " +:+ path +:+ " was not an object"))
      else get_loop next path keys'
  end.

(** The loop followed by [return current[last]]. *)
Definition get_from (current : value) (path : string) (keys : list string)
    (last : string) : Comp heap value :=
  current ← get_loop current path keys;
  read current last.

Definition get (object keyPath : value) : Comp heap value :=
  if decide (typeof object ≠ TObject) then
    throw (TypeError "object must be an object")
  else
    match keyPath with
    | VString keyPath =>
        let split := split keyPath in
        get_from object EmptyString (removelast split)
          (List.last split EmptyString)
    | _ => throw (TypeError "keyPath must be a string")
    end.

(** ** External modules *)

(** [fs-extra], over a type [W] of states of the outside world.
    [readJSONSync] builds the parsed document in the heap, or throws
    ([None]); [writeJSONSync] returns the world afterwards and whether it
    returned normally ([false]: it threw). *)
Class FsExtra (W : Type) := {
  existsSync : W → string → bool;
  readJSONSync : W → string → heap → option (value * heap);
  writeJSONSync : W → string → heap → value → W * bool;
}.

(** [path.resolve] *)
Class PathModule := { path_resolve : string → string → string }.

(** [String.prototype.endsWith] *)
Definition endsWith (s suffix : string) : bool :=
  bool_decide (String.length suffix ≤ String.length s
    ∧ String.substring (String.length s - String.length suffix)
        (String.length suffix) s = suffix).

(** ** Program state *)

(** The fields of a [StorageAdapter] instance. *)
Record StorageAdapter := {
  storageFile : string;
  data : value;
}.

(** Adapter instances are referred to by their index in [adapters].
    [cache] is the cache object of the one [Storage] instance, as the list
    of its properties in creation order.  [write_calls] is a ghost record of
    the calls made to [fse.writeJSONSync]: the file and the data passed. *)
Record state (W : Type) := {
  objects : heap;
  adapters : list StorageAdapter;
  cache : list (string * nat);
  configsFolder : string;
  world : W;
  console : list string;
  write_calls : list (string * value);
}.
Arguments objects {W} _.
Arguments adapters {W} _.
Arguments cache {W} _.
Arguments configsFolder {W} _.
Arguments world {W} _.
Arguments console {W} _.
Arguments write_calls {W} _.

Definition with_objects {W} (h : heap) (st : state W) : state W :=
  {| objects := h; adapters := adapters st; cache := cache st;
     configsFolder := configsFolder st; world := world st;
     console := console st; write_calls := write_calls st |}.

Definition with_adapters {W} (a : list StorageAdapter) (st : state W) : state W :=
  {| objects := objects st; adapters := a; cache := cache st;
     configsFolder := configsFolder st; world := world st;
     console := console st; write_calls := write_calls st |}.

Definition with_cache {W} (c : list (string * nat)) (st : state W) : state W :=
  {| objects := objects st; adapters := adapters st; cache := c;
     configsFolder := configsFolder st; world := world st;
     console := console st; write_calls := write_calls st |}.

Definition with_console {W} (c : list string) (st : state W) : state W :=
  {| objects := objects st; adapters := adapters st; cache := cache st;
     configsFolder := configsFolder st; world := world st;
     console := c; write_calls := write_calls st |}.

(** The state after a call of [fse.writeJSONSync(file, d)] that left the
    world [w]. *)
Definition with_write {W} (w : W) (file : string) (d : value) (st : state W)
  : state W :=
  {| objects := objects st; adapters := adapters st; cache := cache st;
     configsFolder := configsFolder st; world := w;
     console := console st; write_calls := write_calls st ++ [(file, d)] |}.

(** A computation on the heap, run on the heap of the program state. *)
Definition on_heap {W A} (m : Comp heap A) : Comp (state W) A := λ st,
  let '(r, h) := m (objects st) in (r, with_objects h st).

(** [console.error(msg, error)]; the error object is not recorded. *)
Definition console_error {W} (msg : string) : Comp (state W) unit := λ st,
  (Ret (), with_console (console st ++ [msg]) st).

(** ** [StorageAdapter] *)

Section adapter.
Context {W : Type} `{!FsExtra W}.

(** [this.storageFile] and [this.data] *)
Definition this_storageFile (this : nat) : Comp (state W) string := λ st,
  match adapters st !! this with
  | Some a => (Ret (storageFile a), st)
  | None => (Throw (EngineTypeError "storageFile"), st)
  end.

Definition this_data (this : nat) : Comp (state W) value := λ st,
  match adapters st !! this with
  | Some a => (Ret (data a), st)
  | None => (Throw (EngineTypeError "data"), st)
  end.

(** [this.data = d] *)
Definition set_this_data (this : nat) (d : value) : Comp (state W) unit := λ st,
  match adapters st !! this with
  | Some a =>
      (Ret (),
       with_adapters
         (<[this := {| storageFile := storageFile a; data := d |}]> (adapters st)) st)
  | None => (Throw (EngineTypeError "data"), st)
  end.

(** The calls into [fs-extra] *)
Definition fse_existsSync (file : string) : Comp (state W) bool := λ st,
  (Ret (existsSync (world st) file), st).

Definition fse_readJSONSync (file : string) : Comp (state W) value := λ st,
  match readJSONSync (world st) file (objects st) with
  | Some (v, h) => (Ret v, with_objects h st)
  | None => (Throw (FsError file), st)
  end.

Definition fse_writeJSONSync (file : string) (d : value) : Comp (state W) unit :=
  λ st,
    let '(w, ok) := writeJSONSync (world st) file (objects st) d in
    (if ok then Ret () else Throw (FsError file), with_write w file d st).

(** [load()] *)
Definition load (this : nat) : Comp (state W) unit :=
  file ← this_storageFile this;
  found ← fse_existsSync file;
  if negb found then
    o ← on_heap new_object;
    set_this_data this o
  else
    try_catch
      (file ← this_storageFile this;
       d ← fse_readJSONSync file;
       set_this_data this d)
      (λ error,
         file ← this_storageFile this;
         console_error ("Failed to load " +:+ file +:+ "!");;
         set_this_data this VNull).

(** [save()] *)
Definition save (this : nat) : Comp (state W) unit :=
  d ← this_data this;
  if decide (d = VNull) then throw (Error "Data has yet to be loaded")
  else
    try_catch
      (file ← this_storageFile this;
       d ← this_data this;
       fse_writeJSONSync file d)
      (λ error,
         file ← this_storageFile this;
         console_error ("Failed to save data to " +:+ file +:+ "!")).

(** [get(key)] of the adapter *)
Definition adapter_get (this : nat) (key : value) : Comp (state W) value :=
  d ← this_data this;
  if decide (d = VNull) then throw (Error "Data has yet to be loaded")
  else if decide (typeof key ≠ TString) then
    throw (TypeError "key must be a string")
  else
    d ← this_data this;
    on_heap (get d key).

(** [set(key, value)] of the adapter *)
Definition adapter_set (this : nat) (key v : value) : Comp (state W) value :=
  d ← this_data this;
  if decide (d = VNull) then throw (Error "Data has yet to be loaded")
  else if decide (typeof key ≠ TString) then
    throw (TypeError "key must be a string")
  else
    oldValue ← adapter_get this key;
    d ← this_data this;
    on_heap (set d key v);;
    mret oldValue.

(** [new StorageAdapter(storageFile)] *)
Definition new_StorageAdapter (file : string) : Comp (state W) nat := λ st,
  let this := length (adapters st) in
  let st :=
    with_adapters (adapters st ++ [ {| storageFile := file; data := VNull |} ]) st in
  (load this;; mret this) st.
End adapter.

(** ** [Storage]: the registry *)

(** [cache[key]] *)
Fixpoint cache_lookup (c : list (string * nat)) (key : string) : option nat :=
  match c with
  | [] => None
  | (k, a) :: c' => if decide (k = key) then Some a else cache_lookup c' key
  end.

(** The order in which [for (const key in o)] visits the keys of [o], given
    in creation order: array indices first, in ascending numeric order, then
    the other keys in creation order. *)
Fixpoint insert_index (e : N * string) (l : list (N * string))
  : list (N * string) :=
  match l with
  | [] => [e]
  | x :: l' => if decide (e.1 ≤ x.1)%N then e :: l else x :: insert_index e l'
  end.

Definition index_keys (keys : list string) : list (N * string) :=
  foldr insert_index [] (omap (λ k, (λ n, (n, k)) <$> parse_index k) keys).

Definition for_in_keys (keys : list string) : list string :=
  (index_keys keys).*2 ++ filter (λ k, parse_index k = None) keys.

(** A [for ... of/in] loop whose body may throw. *)
Fixpoint for_each {S A} (body : A → Comp S unit) (l : list A) : Comp S unit :=
  match l with
  | [] => mret ()
  | x :: l' => body x;; for_each body l'
  end.

Section storage.
Context {W : Type} `{!FsExtra W} `{!PathModule}.

(** The function returned by the constructor of [Storage]. *)
Definition factory (storageFile : string) : Comp (state W) nat :=
  folder ← gets configsFolder;
  let realPath := path_resolve folder storageFile in
  let realPath :=
    if negb (endsWith realPath ".json") then realPath +:+ ".json" else realPath in
  cached ← gets (λ st, cache_lookup (cache st) storageFile);
  match cached with
  | Some a => mret a
  | None =>
      a ← new_StorageAdapter realPath;
      modify (λ st, with_cache (cache st ++ [(storageFile, a)]) st);;
      mret a
  end.

(** [this.cache[key].save()] *)
Definition save_cached (key : string) : Comp (state W) unit :=
  cached ← gets (λ st, cache_lookup (cache st) key);
  match cached with
  | Some a => save a
  | None => throw (EngineTypeError "save")
  end.

Definition saveAll : Comp (state W) unit :=
  keys ← gets (λ st, for_in_keys (cache st).*1);
  for_each save_cached keys.

(** The state in which the module has been loaded and [new Storage()] has
    just returned. *)
Definition initial_state (folder : string) (w : W) : state W :=
  {| objects := []; adapters := []; cache := []; configsFolder := folder;
     world := w; console := []; write_calls := [] |}.
End storage.

(** ** Calls made to the module *)

Inductive call :=
  | CallRegistry (name : string)
  | CallGet (this : nat) (key : value)
  | CallSet (this : nat) (key v : value)
  | CallSave (this : nat)
  | CallLoad (this : nat)
  | CallSaveAll.

Section calls.
Context {W : Type} `{!FsExtra W} `{!PathModule}.

(** The state after a call, whether it returned or threw. *)
Definition run_call (st : state W) (c : call) : state W :=
  match c with
  | CallRegistry name => (factory name st).2
  | CallGet this key => (adapter_get this key st).2
  | CallSet this key v => (adapter_set this key v st).2
  | CallSave this => (save this st).2
  | CallLoad this => (load this st).2
  | CallSaveAll => (saveAll st).2
  end.

Definition run_calls (st : state W) (calls : list call) : state W :=
  foldl run_call st calls.



(** The location [factory] gives to the document called [name]. *)
Definition real_path (folder name : string) : string :=
  let realPath := path_resolve folder name in
  if negb (endsWith realPath ".json") then realPath +:+ ".json" else realPath.
End calls.

(** ** Notions used to state the properties *)

(** The value reached from [v] by following [keys], one property each. *)
Definition resolve (h : heap) (v : value) (keys : list string) : value :=
  foldl (property h) v keys.

(** The segments of a path, joined by dots. *)
Fixpoint join_dots (segs : list string) : string :=
  match segs with
  | [] => EmptyString
  | [seg] => seg
  | seg :: segs' => seg +:+ "." +:+ join_dots segs'
  end.

Fixpoint has_dot (s : string) : bool :=
  match s with
  | EmptyString => false
  | String c r => bool_decide (c = "."%char) || has_dot r
  end.

(** Every reference stored in the heap points into the heap. *)
Definition heap_closed (h : heap) : Prop :=
  ∀ l o key l', h !! l = Some o → o !! key = Some (VObject l') → l' < length h.


(** The keys met, joined as [get] joins them in its error message. *)
Definition concat_keys (keys : list string) : string :=
  foldr String.append EmptyString keys.



(** An adapter whose data is [null]. *)
Definition unloaded {W} (st : state W) (this : nat) : Prop :=
  ∃ a, adapters st !! this = Some a ∧ data a = VNull.

Section invariants.
Context {W : Type}.

(** Computations that leave the cache, the number of adapters and the
    configured folder alone. *)
Definition keeps_registry {A} (m : Comp (state W) A) : Prop :=
  ∀ st, cache (m st).2 = cache st
        ∧ length (adapters (m st).2) = length (adapters st)
        ∧ configsFolder (m st).2 = configsFolder st.

(** What every call keeps true: the cache lists the adapters created so
    far, in the order of their creation, under distinct names. *)
Definition registry_inv (st : state W) : Prop :=
  (cache st).*2 = seq 0 (length (adapters st)) ∧ NoDup (cache st).*1.
End invariants.

(** ** A disk in memory

    An instance of the external modules on which the model can be run: a
    file is corrupt or holds a flat document, writing a read-only file
    fails, and [path.resolve] joins with a slash. *)
Module MemDisk.
Inductive file :=
  | Corrupt
  | Document (o : gmap string value).

Record disk := {
  files : gmap string file;
  read_only : list string;
}.

Global Instance fs_extra : FsExtra disk := {|
  existsSync w f := bool_decide (is_Some (files w !! f));
  readJSONSync w f h :=
    match files w !! f with
    | Some (Document o) => Some (VObject (length h), h ++ [o])
    | _ => None
    end;
  writeJSONSync w f h d :=
    match d with
    | VObject l =>
        if decide (f ∈ read_only w) then (w, false)
        else ({| files := <[f := Document (default ∅ (h !! l))]> (files w);
                 read_only := read_only w |}, true)
    | _ => (w, false)
    end;
|}.

Global Instance path_module : PathModule :=
  {| path_resolve folder f := folder +:+ "/" +:+ f |}.

Definition empty_disk : disk := {| files := ∅; read_only := [] |}.
End MemDisk.

(** ** Concrete documents and states *)

(** The document [{a: {b: 5}}]. *)
Definition nested_heap : heap :=
  [ {["a" := VObject 1]}; {["b" := VNumber 5]} ].

(** The document [{a: {}}]. *)
Definition sparse_heap : heap := [ {["a" := VObject 1]}; ∅ ].

(** The document [{a: 5}]. *)
Definition flat_heap : heap := [ {["a" := VNumber 5]} ].

(** One adapter, loaded with the object at location 0 of [h]. *)
Definition one_adapter (h : heap) : state MemDisk.disk :=
  {| objects := h;
     adapters := [ {| storageFile := "cfg/x.json"; data := VObject 0 |} ];
     cache := [("x", 0)]; configsFolder := "cfg";
     world := MemDisk.empty_disk; console := []; write_calls := [] |}.

(** A disk on which [cfg/a.json] exists and cannot be parsed. *)
Definition corrupt_disk : MemDisk.disk :=
  {| MemDisk.files := {["cfg/a.json" := MemDisk.Corrupt]};
     MemDisk.read_only := [] |}.

(** One adapter on [cfg/a.json], not loaded yet. *)
Definition unloaded_adapter : state MemDisk.disk :=
  {| objects := [];
     adapters := [ {| storageFile := "cfg/a.json"; data := VNull |} ];
     cache := [("a", 0)]; configsFolder := "cfg";
     world := corrupt_disk; console := []; write_calls := [] |}.

(** ** Further notions *)

(** A value that, when it is a reference, points into the heap. *)
Definition value_closed (h : heap) (v : value) : Prop :=
  match v with
  | VObject l => l < length h
  | _ => True
  end.

Section observations.
Context {W : Type} `{!PathModule}.

(** The files of the adapters, in the order of their creation. *)
Definition adapter_files (st : state W) : list string :=
  storageFile <$> adapters st.

(** Computations that leave an observation [obs] of the state alone. *)
Definition preserves {X A} (obs : state W → X) (m : Comp (state W) A) : Prop :=
  ∀ st, obs (m st).2 = obs st.

(** Every cached adapter exists and sits on the location resolved from the
    name it is cached under. *)
Definition cache_files_resolved (st : state W) : Prop :=
  Forall (λ entry, adapter_files st !! entry.2
                   = Some (real_path (configsFolder st) entry.1)) (cache st).

(** The documents held in memory: the heap and the adapters. *)
Definition documents (st : state W) : heap * list StorageAdapter :=
  (objects st, adapters st).
End observations.

Section getters.
Context {W : Type}.

End getters.

(** ** A disk of literals

    A second instance of [fs-extra]: every file holds one JSON literal
    ([null], a boolean, a number or a string), which parsing returns as it
    is; objects cannot be written. *)
Module LiteralDisk.
Global Instance fs_extra : FsExtra (gmap string value) := {|
  existsSync w f := bool_decide (is_Some (w !! f));
  readJSONSync w f h := (λ v, (v, h)) <$> w !! f;
  writeJSONSync w f h d :=
    match d with
    | VObject _ => (w, false)
    | _ => (<[f := d]> w, true)
    end;
|}.

(** One adapter on [cfg/n.json], a file that holds [null]; not loaded
    yet. *)
Definition null_document : state (gmap string value) :=
  {| objects := [];
     adapters := [ {| storageFile := "cfg/n.json"; data := VNull |} ];
     cache := [("n", 0)]; configsFolder := "cfg";
     world := {["cfg/n.json" := VNull]}; console := []; write_calls := [] |}.
End LiteralDisk.

(** A disk on which [cfg/x.json] holds the document [{a: 1}]. *)
Definition document_disk : MemDisk.disk :=
  {| MemDisk.files := {["cfg/x.json" := MemDisk.Document {["a" := VNumber 1]}]};
     MemDisk.read_only := ["cfg/x.json"] |}.

(** One adapter on [cfg/x.json] of [document_disk], not loaded yet. *)
Definition fresh_adapter : state MemDisk.disk :=
  {| objects := [];
     adapters := [ {| storageFile := "cfg/x.json"; data := VNull |} ];
     cache := [("x", 0)]; configsFolder := "cfg";
     world := document_disk; console := []; write_calls := [] |}.


(** ** Basic facts *)

Lemma split_nonempty s : split s ≠ [].
Proof.
  destruct s as [|c r]; simpl; [done|].
  case_decide; [done|]. by destruct (split r).
Qed.

Lemma split_cons s : ∃ seg segs, split s = seg :: segs.
Proof. destruct (split s) eqn:E; [by apply split_nonempty in E | eauto]. Qed.



Lemma string_app_empty_r s : s +:+ EmptyString = s.
Proof.
  induction s as [|c s IH]; [done|].
  change (String c s +:+ EmptyString) with (String c (s +:+ EmptyString)).
  by rewrite IH.
Qed.


Lemma read_heap current key h : (read current key h).2 = h.
Proof. by destruct current. Qed.

Lemma get_loop_heap keys current path h : (get_loop current path keys h).2 = h.
Proof.
  revert current path. induction keys as [|key keys IH]; intros current path; [done|].
  simpl. unfold mbind, comp_bind.
  pose proof (read_heap current key h) as Hr.
  destruct (read current key h) as [[next|e] h1]; simpl in Hr; subst h1; [|done].
  case_decide; [done|]. apply IH.
Qed.

Lemma string_app_assoc s1 s2 s3 : (s1 +:+ s2) +:+ s3 = s1 +:+ (s2 +:+ s3).
Proof.
  induction s1 as [|c s1 IH]; [done|].
  change (String c (s1 +:+ s2) +:+ s3 = String c (s1 +:+ s2 +:+ s3)).
  change (String c ((s1 +:+ s2) +:+ s3) = String c (s1 +:+ s2 +:+ s3)).
  by rewrite IH.
Qed.

Lemma resolve_cons h v key keys :
  resolve h v (key :: keys) = resolve h (property h v key) keys.
Proof. done. Qed.

Lemma resolve_app h v keys1 keys2 :
  resolve h v (keys1 ++ keys2) = resolve h (resolve h v keys1) keys2.
Proof. apply foldl_app. Qed.



Lemma get_eq l s h :
  get (VObject l) (VString s) h =
    get_from (VObject l) EmptyString (removelast (split s))
      (List.last (split s) EmptyString) h.
Proof. done. Qed.


Lemma get_loop_step l path key keys h :
  get_loop (VObject l) path (key :: keys) h =
    if decide (typeof (own_property h l key) ≠ TObject) then
      (Throw (TypeError ("value at " +:+ (path +:+ key) +:+ " was not an object")), h)
    else get_loop (own_property h l key) (path +:+ key) keys h.
Proof. simpl. unfold mbind, comp_bind. simpl. by case_decide. Qed.

Lemma get_loop_null path key keys h :
  get_loop VNull path (key :: keys) h = (Throw (EngineTypeError key), h).
Proof. done. Qed.


(** *** Facts about [set] *)






Lemma length_alter_heap (f : gmap string value → gmap string value) l (h : heap) :
  length (alter f l h) = length h.
Proof. apply length_alter. Qed.





Lemma own_property_object (h : heap) l key l' :
  own_property h l key = VObject l' →
  ∃ o, h !! l = Some o ∧ o !! key = Some (VObject l').
Proof.
  unfold own_property. destruct (h !! l) as [o|] eqn:Hl; simpl; [|done].
  destruct (o !! key) as [x|] eqn:Hk; simpl; [|done]. intros ->. eauto.
Qed.



(** [set] on a document: a closed heap without cycles, from an object [l]
    of it, along keys none of which leads to a truthy primitive. *)
Section set_on_documents.
Variables (h : heap) (rank : loc → nat).
Hypothesis Hclosed : heap_closed h.
Hypothesis Hrank :
  ∀ l o key l', h !! l = Some o → o !! key = Some (VObject l') → rank l' < rank l.

End set_on_documents.

(** *** Reading back what [set] wrote *)

Section get_then_set.
Variables (h : heap) (rank : loc → nat).
Hypothesis Hclosed : heap_closed h.
Hypothesis Hrank :
  ∀ l o key l', h !! l = Some o → o !! key = Some (VObject l') → rank l' < rank l.

End get_then_set.

(** ** The path accessors: claims C1, C2, C8, C9 *)

Lemma get_from_heap current path keys last h :
  (get_from current path keys last h).2 = h.
Proof.
  unfold get_from, mbind, comp_bind.
  pose proof (get_loop_heap keys current path h) as Hl.
  destruct (get_loop current path keys h) as [[c|e] h1];
    simpl in Hl; subst h1; [|done].
  apply read_heap.
Qed.

(** C9. [get] leaves the heap as it found it, whether it returns a value,
    returns [undefined] for a missing key, or throws: a read never creates
    or destroys structure. *)
Theorem get_leaves_heap_unchanged object keyPath h :
  (get object keyPath h).2 = h.
Proof.
  unfold get. case_decide; [done|].
  destruct keyPath as [| |b|n|s|l]; try done.
  apply get_from_heap.
Qed.

(** C2 fails on the code where an intermediate key holds [null]: [typeof
    null] is ["object"], so the check of [get] lets it through and the next
    property access throws the engine's own [TypeError], which names no
    path. *)
Theorem get_through_null :
  get (VObject 0) (VString "a.b") [ {["a" := VNull]} ]
  = (Throw (EngineTypeError "b"), [ {["a" := VNull]} ]).
Proof. vm_compute. reflexivity. Qed.





(** ** The adapter: claims C3, C4, C5, C10 *)

Section adapter_facts.
Context {W : Type} `{!FsExtra W}.
Implicit Types st : state W.

Lemma with_objects_id st : with_objects (objects st) st = st.
Proof. by destruct st. Qed.

Lemma adapter_get_eval st this a s :
  adapters st !! this = Some a → data a ≠ VNull →
  adapter_get this (VString s) st
  = ((get (data a) (VString s) (objects st)).1, st).
Proof.
  intros Ha Hd. unfold adapter_get, mbind, comp_bind, this_data, on_heap.
  rewrite Ha. rewrite decide_False by done. simpl. rewrite Ha.
  assert ((get (data a) (VString s) (objects st)).2 = objects st) as Hh.
  { unfold get. case_decide; [done|]. apply get_from_heap. }
  destruct (get (data a) (VString s) (objects st)) as [r h']. simpl in *.
  subst h'. by rewrite with_objects_id.
Qed.



Lemma unloaded_calls_throw st this a key v :
  adapters st !! this = Some a → data a = VNull →
  adapter_get this key st = (Throw (Error "Data has yet to be loaded"), st)
  ∧ adapter_set this key v st = (Throw (Error "Data has yet to be loaded"), st)
  ∧ save this st = (Throw (Error "Data has yet to be loaded"), st).
Proof.
  intros Ha Hd.
  unfold adapter_get, adapter_set, save, mbind, comp_bind, this_data.
  rewrite Ha, Hd. done.
Qed.


Lemma load_corrupt st this a :
  adapters st !! this = Some a →
  existsSync (world st) (storageFile a) = true →
  readJSONSync (world st) (storageFile a) (objects st) = None →
  load this st
  = (Ret (),
     with_adapters
       (<[this := {| storageFile := storageFile a; data := VNull |}]>
          (adapters st))
       (with_console
          (console st ++ ["Failed to load " +:+ storageFile a +:+ "!"]) st)).
Proof.
  intros Ha Hex Hread.
  unfold load, mbind, comp_bind, this_storageFile, fse_existsSync.
  rewrite Ha, Hex. simpl. unfold try_catch, mbind, comp_bind, fse_readJSONSync.
  rewrite Ha, Hread. simpl. rewrite Ha. simpl.
  unfold set_this_data. simpl. by rewrite Ha.
Qed.
End adapter_facts.

Section adapter_claims.
Context {W : Type} `{!FsExtra W}.
Implicit Types st : state W.



(** C5. A load that finds the file but cannot parse it logs the failure
    and leaves the adapter unloaded.  On an unloaded adapter [get], [set]
    and [save] throw the "not loaded" error and change nothing, so the
    adapter stays unloaded, and nothing is read, written or saved, until
    [load] succeeds. *)
Theorem failed_load_leaves_adapter_unloaded st this a :
  adapters st !! this = Some a →
  existsSync (world st) (storageFile a) = true →
  readJSONSync (world st) (storageFile a) (objects st) = None →
  ∃ st',
    load this st = (Ret (), st')
    ∧ unloaded st' this
    ∧ console st' = console st ++ ["Failed to load " +:+ storageFile a +:+ "!"]
    ∧ ∀ st2, unloaded st2 this → ∀ key v,
        adapter_get this key st2
        = (Throw (Error "Data has yet to be loaded"), st2)
        ∧ adapter_set this key v st2
          = (Throw (Error "Data has yet to be loaded"), st2)
        ∧ save this st2 = (Throw (Error "Data has yet to be loaded"), st2).
Proof.
  intros Ha Hex Hread. rewrite (load_corrupt st this a Ha Hex Hread).
  eexists. split; [reflexivity|]. split; [|split; [done|]].
  - exists {| storageFile := storageFile a; data := VNull |}.
    split; [|reflexivity]. simpl.
    apply list_lookup_insert_eq. by eapply lookup_lt_Some.
  - intros st2 (a2 & Ha2 & Hd2) key v. by eapply unloaded_calls_throw.
Qed.

End adapter_claims.

(** ** The registry: claims C6, C7 *)

Section frames.
Context {W : Type} `{!FsExtra W}.
Implicit Types st : state W.
Local Abbreviation keeps_registry := (keeps_registry (W:=W)).

Lemma keeps_ret {A} (a : A) : keeps_registry (mret a : Comp (state W) A).
Proof. done. Qed.

Lemma keeps_throw {A} e : keeps_registry (throw e : Comp (state W) A).
Proof. done. Qed.

Lemma keeps_bind {A B} (m : Comp (state W) A) (f : A → Comp (state W) B) :
  keeps_registry m → (∀ a, keeps_registry (f a)) → keeps_registry (m ≫= f).
Proof.
  intros Hm Hf st. unfold mbind, comp_bind. specialize (Hm st).
  destruct (m st) as [[a|e] st1]; simpl in *; [|done].
  destruct (Hf a st1) as (-> & -> & ->). done.
Qed.

Lemma keeps_try_catch {A} (m : Comp (state W) A) handler :
  keeps_registry m → (∀ e, keeps_registry (handler e)) →
  keeps_registry (try_catch m handler).
Proof.
  intros Hm Hf st. unfold try_catch. specialize (Hm st).
  destruct (m st) as [[a|e] st1]; simpl in *; [done|].
  destruct (Hf e st1) as (-> & -> & ->). done.
Qed.

Lemma keeps_on_heap {A} (m : Comp heap A) : keeps_registry (on_heap (W:=W) m).
Proof. intros st. unfold on_heap. by destruct (m (objects st)). Qed.

Lemma keeps_console_error msg : keeps_registry (console_error (W:=W) msg).
Proof. done. Qed.

Lemma keeps_this_data this : keeps_registry (this_data this).
Proof. intros st. unfold this_data. by destruct (adapters st !! this). Qed.

Lemma keeps_this_storageFile this : keeps_registry (this_storageFile this).
Proof. intros st. unfold this_storageFile. by destruct (adapters st !! this). Qed.

Lemma keeps_set_this_data this d : keeps_registry (set_this_data this d).
Proof.
  intros st. unfold set_this_data. destruct (adapters st !! this); [|done].
  simpl. by rewrite length_insert.
Qed.

Lemma keeps_existsSync file : keeps_registry (fse_existsSync file).
Proof. done. Qed.

Lemma keeps_readJSONSync file : keeps_registry (fse_readJSONSync file).
Proof.
  intros st. unfold fse_readJSONSync.
  by destruct (readJSONSync (world st) file (objects st)) as [[??]|].
Qed.

Lemma keeps_writeJSONSync file d : keeps_registry (fse_writeJSONSync file d).
Proof.
  intros st. unfold fse_writeJSONSync.
  by destruct (writeJSONSync (world st) file (objects st) d).
Qed.

Lemma keeps_gets {A} (f : state W → A) : keeps_registry (gets f).
Proof. done. Qed.

Lemma keeps_if {A} (b : bool) (m1 m2 : Comp (state W) A) :
  keeps_registry m1 → keeps_registry m2 → keeps_registry (if b then m1 else m2).
Proof. by destruct b. Qed.

Lemma keeps_decide {A} P `{!Decision P} (m1 m2 : Comp (state W) A) :
  keeps_registry m1 → keeps_registry m2 →
  keeps_registry (if decide P then m1 else m2).
Proof. by case_decide. Qed.
End frames.

Create HintDb frame.
#[export] Hint Resolve keeps_ret keeps_throw keeps_on_heap keeps_console_error
  keeps_this_data keeps_this_storageFile keeps_set_this_data keeps_existsSync
  keeps_readJSONSync keeps_writeJSONSync keeps_gets : frame.

Ltac keeps :=
  repeat first
    [ apply keeps_bind; [|intros ?]
    | apply keeps_try_catch; [|intros ?]
    | apply keeps_if
    | apply keeps_decide
    | match goal with
      | |- keeps_registry (match ?x with _ => _ end) => destruct x
      end
    | solve [auto with frame] ].

Section registry_facts.
Context {W : Type} `{!FsExtra W} `{!PathModule}.
Implicit Types st : state W.
Local Abbreviation keeps_registry := (keeps_registry (W:=W)).

Lemma keeps_load this : keeps_registry (load (W:=W) this).
Proof. unfold load. keeps. Qed.

Lemma keeps_save this : keeps_registry (save (W:=W) this).
Proof. unfold save. keeps. Qed.

Lemma keeps_adapter_get this key : keeps_registry (adapter_get (W:=W) this key).
Proof. unfold adapter_get. keeps. Qed.

Lemma keeps_adapter_set this key v :
  keeps_registry (adapter_set (W:=W) this key v).
Proof. unfold adapter_set. keeps; apply keeps_adapter_get. Qed.

Lemma keeps_for_each {A} (body : A → Comp (state W) unit) l :
  (∀ x, keeps_registry (body x)) → keeps_registry (for_each body l).
Proof. intros Hb. induction l as [|x l IH]; simpl; keeps; auto. Qed.

Lemma keeps_saveAll : keeps_registry (saveAll (W:=W)).
Proof.
  unfold saveAll. keeps. apply keeps_for_each. intros key.
  keeps.
Qed.
End registry_facts.

Section registry_claims.
Context {W : Type} `{!FsExtra W} `{!PathModule}.
Implicit Types st : state W.

Lemma cache_lookup_app c1 c2 key :
  cache_lookup (c1 ++ c2) key
  = match cache_lookup c1 key with
    | Some a => Some a
    | None => cache_lookup c2 key
    end.
Proof.
  induction c1 as [|[k a] c1 IH]; simpl; [done|]. by case_decide.
Qed.

Lemma cache_lookup_None c key : cache_lookup c key = None ↔ key ∉ c.*1.
Proof.
  induction c as [|[k a] c IH]; simpl.
  - split; [intros _; apply not_elem_of_nil|done].
  - rewrite not_elem_of_cons. case_decide as Hk.
    + subst. split; [done|]. by intros [? _].
    + rewrite IH. split; [by intros ?|by intros [_ ?]].
Qed.

Lemma load_returns st this a :
  adapters st !! this = Some a →
  ∃ st' d,
    load this st = (Ret (), st')
    ∧ adapters st'
      = <[this := {| storageFile := storageFile a; data := d |}]> (adapters st).
Proof.
  intros Ha. unfold load, mbind, comp_bind, this_storageFile, fse_existsSync.
  rewrite Ha. simpl.
  destruct (existsSync (world st) (storageFile a)); simpl.
  - unfold try_catch, mbind, comp_bind, fse_readJSONSync. rewrite Ha.
    destruct (readJSONSync (world st) (storageFile a) (objects st))
      as [[d h']|]; simpl; rewrite ?Ha; simpl; unfold set_this_data; simpl;
      rewrite Ha; eauto.
  - unfold set_this_data. simpl. rewrite Ha. eauto.
Qed.

Lemma factory_hit st name a :
  cache_lookup (cache st) name = Some a → factory name st = (Ret a, st).
Proof.
  intros Hc. unfold factory, mbind, comp_bind, gets. simpl. by rewrite Hc.
Qed.

Lemma factory_miss st name :
  cache_lookup (cache st) name = None →
  ∃ st1 d,
    factory name st = (Ret (length (adapters st)), st1)
    ∧ cache st1 = cache st ++ [(name, length (adapters st))]
    ∧ adapters st1
      = adapters st
        ++ [ {| storageFile := real_path (configsFolder st) name; data := d |} ]
    ∧ configsFolder st1 = configsFolder st.
Proof.
  intros Hc. unfold factory, mbind, comp_bind, gets. simpl. rewrite Hc.
  unfold new_StorageAdapter, mbind, comp_bind.
  fold (real_path (configsFolder st) name).
  set (a := {| storageFile := real_path (configsFolder st) name; data := VNull |}).
  set (st0 := with_adapters (adapters st ++ [a]) st).
  assert (adapters st0 !! length (adapters st) = Some a) as Ha.
  { simpl. rewrite lookup_app_r by done. by rewrite Nat.sub_diag. }
  destruct (load_returns st0 _ a Ha) as (st' & d & Hload & Hads).
  destruct (keeps_load (length (adapters st)) st0) as (Hcache & _ & Hfolder).
  rewrite Hload in Hcache, Hfolder. simpl in Hcache, Hfolder.
  rewrite Hload. simpl. eexists _, d. split; [reflexivity|]. simpl.
  rewrite Hcache, Hads, Hfolder. split; [done|]. split; [|done].
  simpl. clear. induction (adapters st) as [|x l IH]; simpl; [done|].
  by rewrite IH.
Qed.

Lemma factory_inv st name : registry_inv st → registry_inv (factory name st).2.
Proof.
  intros [Hseq Hnd]. destruct (cache_lookup (cache st) name) as [a|] eqn:Hc.
  - by rewrite (factory_hit st name a Hc).
  - destruct (factory_miss st name Hc) as (st1 & d & -> & Hcache & Hads & _).
    simpl. split.
    + rewrite Hcache, Hads, fmap_app, length_app, Hseq. simpl.
      by rewrite Nat.add_1_r, seq_S.
    + rewrite Hcache, fmap_app. simpl. apply NoDup_app. split; [done|].
      split; [|apply NoDup_singleton].
      intros x Hx ->%list_elem_of_singleton. by apply cache_lookup_None in Hc.
Qed.

Lemma keeps_inv {A} (m : Comp (state W) A) st :
  keeps_registry m → registry_inv st → registry_inv (m st).2.
Proof. intros Hm [Hseq Hnd]. destruct (Hm st) as (Hc & Hl & _). split; congruence. Qed.

Lemma run_call_inv st c : registry_inv st → registry_inv (run_call st c).
Proof.
  intros Hinv. destruct c; simpl;
    [by apply factory_inv|apply keeps_inv; [|done]..].
  - apply keeps_adapter_get.
  - apply keeps_adapter_set.
  - apply keeps_save.
  - apply keeps_load.
  - apply keeps_saveAll.
Qed.


Lemma initial_inv folder (w : W) : registry_inv (initial_state folder w).
Proof. split; [done|apply NoDup_nil_2]. Qed.



End registry_claims.

(** *** The order of [for ... in] *)








Section saveAll_facts.
Context {W : Type} `{!FsExtra W} `{!PathModule}.
Implicit Types st : state W.




End saveAll_facts.

Section saveAll_claim.
Context {W : Type} `{!FsExtra W} `{!PathModule}.
Implicit Types st : state W.

End saveAll_claim.

(** ** Concrete runs *)

Example split_abc : split "a.b.c" = ["a"; "b"; "c"].
Proof. reflexivity. Qed.

Example split_empty : split EmptyString = [EmptyString].
Proof. reflexivity. Qed.

Example split_dots :
  split ".a..b." = [EmptyString; "a"; EmptyString; "b"; EmptyString].
Proof. reflexivity. Qed.

Example set_xyz :
  (set (VObject 0) (VString "x.y.z") (VNumber 1) [∅]).2
  = [ {["x" := VObject 1]}; {["y" := VObject 2]}; {["z" := VNumber 1]} ].
Proof. by vm_compute. Qed.

Example get_xyz :
  let h := (set (VObject 0) (VString "x.y.z") (VNumber 1) [∅]).2 in
  (get (VObject 0) (VString "x.y.z") h).1 = Ret (VNumber 1)
  ∧ (get (VObject 0) (VString "x.y.w") h).1 = Ret VUndefined
  ∧ (get (VObject 0) (VString "x.y.z.q") h).1
    = Throw (TypeError "value at xyz was not an object").
Proof. by vm_compute. Qed.

Example for_in_keys_order :
  for_in_keys ["b"; "10"; "a"; "2"; "01"] = ["2"; "10"; "b"; "a"; "01"].
Proof. by vm_compute. Qed.



Lemma sparse_heap_closed : heap_closed sparse_heap.
Proof.
  intros l o key l' Hl Ho. destruct l as [|[|l]]; simpl in Hl; simplify_eq.
  apply lookup_singleton_Some in Ho as [_ Ho]. simplify_eq. simpl. lia.
Defined.






(** C5 on a disk whose file is corrupt. *)
Lemma failed_load_leaves_adapter_unloaded_witness :
  ∃ st',
    load 0 unloaded_adapter = (Ret (), st')
    ∧ console st' = ["Failed to load cfg/a.json!"]
    ∧ adapter_get 0 (VString "a") st'
      = (Throw (Error "Data has yet to be loaded"), st')
    ∧ save 0 st' = (Throw (Error "Data has yet to be loaded"), st').
Proof.
  destruct (failed_load_leaves_adapter_unloaded unloaded_adapter 0
              {| storageFile := "cfg/a.json"; data := VNull |})
    as (st' & Hload & Hun & Hlog & Hcalls).
  - reflexivity.
  - vm_compute. reflexivity.
  - vm_compute. reflexivity.
  - exists st'. split; [exact Hload|]. split; [exact Hlog|].
    destruct (Hcalls st' Hun (VString "a") VUndefined) as (Hg & _ & Hs).
    split; [exact Hg|exact Hs].
Defined.



(** Names that are array indices are visited first, in numeric order:
    after [registry("2")] and [registry("1")], [saveAll] writes [1.json]
    before [2.json]. *)
Example saveAll_visits_index_names_first :
  let st := run_calls (initial_state "cfg" MemDisk.empty_disk)
              [CallRegistry "2"; CallRegistry "1"] in
  (storageFile <$> adapters st) = ["cfg/2.json"; "cfg/1.json"]
  ∧ (write_calls (saveAll st).2).*1 = ["cfg/1.json"; "cfg/2.json"].
Proof. vm_compute. split; reflexivity. Qed.




(** ** Further properties of the path accessors *)




(** When every key before the last holds an object, [get] returns what the
    whole path resolves to. *)
Lemma get_from_objects h keys :
  ∀ l path last,
    (∀ pre suf, keys = pre ++ suf → pre ≠ [] →
       ∃ l', resolve h (VObject l) pre = VObject l') →
    get_from (VObject l) path keys last h
    = (Ret (resolve h (VObject l) (keys ++ [last])), h).
Proof.
  induction keys as [|key keys IH]; intros l path last Hobj; [done|].
  destruct (Hobj [key] keys) as [l1 Hl1]; [done..|].
  unfold resolve in Hl1. simpl in Hl1.
  unfold get_from, mbind, comp_bind. rewrite get_loop_step, Hl1.
  rewrite decide_False by (by intros []).
  change ((key :: keys) ++ [last]) with (key :: (keys ++ [last])).
  rewrite resolve_cons. simpl property. rewrite Hl1.
  apply (IH l1 (path +:+ key) last).
  intros pre suf Hk Hne. destruct (Hobj (key :: pre) suf) as [l' Hl'].
  - by rewrite Hk.
  - done.
  - exists l'. rewrite resolve_cons in Hl'. simpl in Hl'. by rewrite Hl1 in Hl'.
Qed.

(** X1. When every intermediate segment of the path resolves to an object,
    [get] returns the value the whole path resolves to ([undefined] when
    the last key is missing) and does not throw. *)
Theorem get_returns_resolved_value h l s :
  (∀ pre suf, split s = pre ++ suf → pre ≠ [] → suf ≠ [] →
     ∃ l', resolve h (VObject l) pre = VObject l') →
  get (VObject l) (VString s) h = (Ret (resolve h (VObject l) (split s)), h).
Proof.
  intros Hobj. rewrite get_eq.
  assert (split s = removelast (split s) ++ [List.last (split s) EmptyString])
    as Hsplit by (apply app_removelast_last, split_nonempty).
  set (keys := removelast (split s)) in *.
  set (last := List.last (split s) EmptyString) in *.
  rewrite Hsplit. apply get_from_objects.
  intros pre suf Hk Hne. apply (Hobj pre (suf ++ [last])).
  - by rewrite Hsplit, Hk, <- (assoc_L (++)).
  - done.
  - by destruct suf.
Qed.

Lemma get_returns_resolved_value_witness :
  get (VObject 0) (VString "a.b") nested_heap = (Ret (VNumber 5), nested_heap)
  ∧ get (VObject 0) (VString "a.c") nested_heap = (Ret VUndefined, nested_heap).
Proof.
  split.
  - refine (get_returns_resolved_value nested_heap 0 "a.b" _).
    intros pre suf Hsplit Hne Hsuf.
    change (split "a.b") with ["a"; "b"] in Hsplit.
    destruct pre as [|k1 [|k2 pre]]; simpl in Hsplit.
    + by destruct Hne.
    + injection Hsplit as <- _. exists 1. reflexivity.
    + injection Hsplit as _ _ Hnil. symmetry in Hnil.
      apply app_eq_nil in Hnil as [_ ->]. by destruct Hsuf.
  - refine (get_returns_resolved_value nested_heap 0 "a.c" _).
    intros pre suf Hsplit Hne Hsuf.
    change (split "a.c") with ["a"; "c"] in Hsplit.
    destruct pre as [|k1 [|k2 pre]]; simpl in Hsplit.
    + by destruct Hne.
    + injection Hsplit as <- _. exists 1. reflexivity.
    + injection Hsplit as _ _ Hnil. symmetry in Hnil.
      apply app_eq_nil in Hnil as [_ ->]. by destruct Hsuf.
Defined.

Lemma get_loop_first_non_object h pre :
  ∀ l path rest,
    pre ≠ [] →
    (∀ p q, pre = p ++ q → p ≠ [] → q ≠ [] →
       ∃ l', resolve h (VObject l) p = VObject l') →
    typeof (resolve h (VObject l) pre) ≠ TObject →
    get_loop (VObject l) path (pre ++ rest) h
    = (Throw (TypeError ("value at " +:+ (path +:+ concat_keys pre)
                         +:+ " was not an object")), h).
Proof.
  induction pre as [|key pre IH]; intros l path rest Hne Hobj Hty; [done|].
  change ((key :: pre) ++ rest) with (key :: (pre ++ rest)).
  rewrite get_loop_step. destruct pre as [|key' pre].
  - unfold resolve in Hty. simpl in Hty. rewrite decide_True by done.
    change (concat_keys [key]) with (key +:+ EmptyString).
    by rewrite string_app_empty_r.
  - destruct (Hobj [key] (key' :: pre)) as [l1 Hl1]; [done..|].
    unfold resolve in Hl1. simpl in Hl1. rewrite Hl1.
    rewrite decide_False by (by intros []).
    rewrite resolve_cons in Hty. simpl property in Hty. rewrite Hl1 in Hty.
    rewrite (IH l1 (path +:+ key) rest); [|done| |done].
    + change (concat_keys (key :: key' :: pre))
        with (key +:+ concat_keys (key' :: pre)).
      by rewrite (string_app_assoc path key).
    + intros p q Hpq Hp Hq. destruct (Hobj (key :: p) q) as [l' Hl'].
      * by rewrite Hpq.
      * done.
      * done.
      * exists l'. rewrite resolve_cons in Hl'. simpl in Hl'.
        by rewrite Hl1 in Hl'.
Qed.

(** X2. [get] throws at the first intermediate segment whose value is not
    of type object (a missing key, a boolean, a number, a string): the
    message names the segments up to and including that one, joined without
    separators, and the heap is untouched. *)
Theorem get_throws_at_first_non_object h l s pre suf :
  split s = pre ++ suf → pre ≠ [] → suf ≠ [] →
  (∀ p q, pre = p ++ q → p ≠ [] → q ≠ [] →
     ∃ l', resolve h (VObject l) p = VObject l') →
  typeof (resolve h (VObject l) pre) ≠ TObject →
  get (VObject l) (VString s) h
  = (Throw (TypeError ("value at " +:+ concat_keys pre
                       +:+ " was not an object")), h).
Proof.
  intros Hsplit Hne Hsuf Hobj Hty. rewrite get_eq, Hsplit.
  rewrite removelast_app by done. unfold get_from, mbind, comp_bind.
  by rewrite (get_loop_first_non_object h pre l EmptyString _ Hne Hobj Hty).
Qed.

Lemma get_throws_at_first_non_object_witness :
  get (VObject 0) (VString "a.b.c.d") nested_heap
  = (Throw (TypeError "value at ab was not an object"), nested_heap).
Proof.
  refine (get_throws_at_first_non_object nested_heap 0 "a.b.c.d"
            ["a"; "b"] ["c"; "d"] _ _ _ _ _).
  - reflexivity.
  - discriminate.
  - discriminate.
  - intros p q Hpq Hp Hq. destruct p as [|k1 [|k2 p]]; simpl in Hpq.
    + by destruct Hp.
    + injection Hpq as <- _. exists 1. reflexivity.
    + injection Hpq as _ _ Hnil. symmetry in Hnil.
      apply app_eq_nil in Hnil as [_ ->]. by destruct Hq.
  - vm_compute. discriminate.
Defined.

(** A value that is not an object has no property that is an object or
    [null]. *)
Lemma property_of_non_object h v key :
  (∀ l, v ≠ VObject l) →
  property h v key ≠ VNull ∧ ∀ l, property h v key ≠ VObject l.
Proof.
  intros Hv. destruct v as [| |b|n|s|l]; simpl; try done.
  - unfold string_property. case_decide; [done|].
    destruct (parse_index key) as [i|]; [|done].
    by destruct (String.get (N.to_nat i) s).
  - by destruct (Hv l).
Qed.

Lemma resolve_of_non_object h keys :
  ∀ v, (∀ l, v ≠ VObject l) → keys ≠ [] →
    resolve h v keys ≠ VNull ∧ ∀ l, resolve h v keys ≠ VObject l.
Proof.
  induction keys as [|key keys IH]; intros v Hv Hne; [done|].
  rewrite resolve_cons.
  destruct (property_of_non_object h v key Hv) as [Hn Ho].
  destruct keys as [|key' keys]; [done|]. by apply IH.
Qed.

Lemma get_from_through_null h pre :
  ∀ l path mid last,
    pre ≠ [] → resolve h (VObject l) pre = VNull →
    get_from (VObject l) path (pre ++ mid) last h
    = (Throw (EngineTypeError (hd last mid)), h).
Proof.
  induction pre as [|key pre IH]; intros l path mid last Hne Hnull; [done|].
  rewrite resolve_cons in Hnull. simpl property in Hnull.
  change ((key :: pre) ++ mid) with (key :: (pre ++ mid)).
  unfold get_from, mbind, comp_bind. rewrite get_loop_step.
  destruct pre as [|key' pre].
  - unfold resolve in Hnull. simpl in Hnull. rewrite Hnull.
    rewrite decide_False by (by intros []). by destruct mid.
  - destruct (own_property h l key) as [| |b|n|s|l1] eqn:Hp;
      try (exfalso;
           refine (proj1 (resolve_of_non_object h (key' :: pre) _ _ _) Hnull);
           done).
    rewrite decide_False by (by intros []).
    apply (IH l1 (path +:+ key) mid last); done.
Qed.

(** X3. When an intermediate segment of the path resolves to [null], [get]
    does not throw its own error: the [typeof] test lets [null] through and
    the engine throws on the access of the next segment. *)
Theorem get_throws_engine_error_through_null h l s pre key suf :
  split s = pre ++ key :: suf → pre ≠ [] →
  resolve h (VObject l) pre = VNull →
  get (VObject l) (VString s) h = (Throw (EngineTypeError key), h).
Proof.
  intros Hsplit Hne Hnull. rewrite get_eq, Hsplit.
  rewrite removelast_app by done.
  rewrite (get_from_through_null h pre l _ _ _ Hne Hnull).
  destruct suf as [|key' suf]; [|done].
  simpl. by rewrite last_last.
Qed.

Lemma get_throws_engine_error_through_null_witness :
  get (VObject 0) (VString "a.b.c") [ {["a" := VNull]} ]
  = (Throw (EngineTypeError "b"), [ {["a" := VNull]} ]).
Proof.
  refine (get_throws_engine_error_through_null _ 0 "a.b.c" ["a"] "b" ["c"] _ _ _).
  - reflexivity.
  - discriminate.
  - reflexivity.
Defined.

(** X4. The root check of [get] and [set] is [typeof object !== 'object']:
    a root of any other type is rejected with a [TypeError] before the path
    is looked at, but [null] passes the check, and the engine then throws on
    the access of the first segment. *)
Theorem accessors_root_check object keyPath v h :
  (typeof object ≠ TObject →
     get object keyPath h = (Throw (TypeError "object must be an object"), h)
     ∧ set object keyPath v h
       = (Throw (TypeError "object must be an object"), h))
  ∧ (∀ s,
       get VNull (VString s) h
       = (Throw (EngineTypeError (hd EmptyString (split s))), h)
       ∧ set VNull (VString s) v h
         = (Throw (EngineTypeError (hd EmptyString (split s))), h)).
Proof.
  split.
  - intros Hty. unfold get, set. by rewrite !decide_True by done.
  - intros s. unfold get, set. simpl.
    destruct (split s) as [|k1 [|k2 keys]] eqn:Hs.
    + by apply split_nonempty in Hs.
    + done.
    + done.
Qed.

Lemma accessors_root_check_witness :
  get (VNumber 5) (VString "a") [] = (Throw (TypeError "object must be an object"), [])
  ∧ set VNull (VString "a.b") VUndefined []
    = (Throw (EngineTypeError "a"), []).
Proof.
  destruct (accessors_root_check (VNumber 5) (VString "a") VUndefined [])
    as [Hty _].
  destruct (accessors_root_check VNull (VString "a") VUndefined [])
    as [_ Hnull].
  split.
  - apply Hty. discriminate.
  - exact (proj2 (Hnull "a.b")).
Defined.








(** *** [set] keeps the heap closed *)

Lemma property_closed h v key :
  heap_closed h → value_closed h (property h v key).
Proof.
  intros Hclosed. destruct v as [| |b|n|s|l]; simpl; try done.
  - unfold string_property. case_decide; [done|].
    destruct (parse_index key) as [i|]; [|done].
    by destruct (String.get (N.to_nat i) s).
  - destruct (own_property h l key) as [| |b'|n'|s'|l'] eqn:Hp; try done.
    destruct (own_property_object _ _ _ _ Hp) as (o & Ho & Hk).
    by eapply Hclosed.
Qed.

Lemma heap_closed_new_object h : heap_closed h → heap_closed (h ++ [∅]).
Proof.
  intros Hclosed l o key l' Hl Ho. rewrite length_app. simpl.
  destruct (decide (l < length h)) as [Hlt|Hge].
  - rewrite lookup_app_l in Hl by done.
    pose proof (Hclosed _ _ _ _ Hl Ho). lia.
  - rewrite lookup_app_r in Hl by lia.
    destruct (l - length h) as [|n]; simpl in Hl; [|done].
    injection Hl as <-. by rewrite lookup_empty in Ho.
Qed.

Lemma heap_closed_assign h l key v :
  heap_closed h → value_closed h v → heap_closed (alter (<[key := v]>) l h).
Proof.
  intros Hclosed Hv l0 o key0 l' Hl Ho. rewrite length_alter.
  destruct (decide (l = l0)) as [->|Hne].
  - rewrite list_lookup_alter_eq in Hl.
    destruct (h !! l0) as [o0|] eqn:Ho0; simpl in Hl; [|done].
    injection Hl as <-.
    destruct (decide (key = key0)) as [->|Hk].
    + rewrite lookup_insert_eq in Ho. injection Ho as ->. exact Hv.
    + rewrite lookup_insert_ne in Ho by done. by eapply Hclosed.
  - rewrite list_lookup_alter_ne in Hl by done. by eapply Hclosed.
Qed.

Lemma write_closed current key v h :
  heap_closed h → value_closed h v →
  heap_closed (write current key v h).2
  ∧ length (write current key v h).2 = length h.
Proof.
  intros Hclosed Hv. destruct current as [| |b|n|s|l]; simpl; try done.
  split; [by apply heap_closed_assign|apply length_alter].
Qed.

Lemma value_closed_mono h h' v :
  length h ≤ length h' → value_closed h v → value_closed h' v.
Proof. intros Hle. destruct v; simpl; try done. lia. Qed.

Lemma set_loop_closed keys :
  ∀ current h,
    heap_closed h → value_closed h current →
    heap_closed (set_loop current keys h).2
    ∧ length h ≤ length (set_loop current keys h).2
    ∧ length (set_loop current keys h).2 ≤ length h + length keys
    ∧ ∀ c, (set_loop current keys h).1 = Ret c →
           value_closed (set_loop current keys h).2 c.
Proof.
  induction keys as [|key keys IH]; intros current h Hclosed Hcur.
  - simpl. split; [done|]. split; [done|]. split; [lia|].
    intros c Hc. unfold mret, comp_ret in Hc. simpl in Hc. by injection Hc as <-.
  - simpl. unfold mbind, comp_bind.
    destruct current as [| |b|n|s|l] eqn:Hcurrent;
      try (simpl; split; [done|]; split; [lia|]; split; [lia|]; done).
    all: rewrite <- Hcurrent in *.
    all: assert (read current key h = (Ret (property h current key), h)) as ->
           by (by rewrite Hcurrent).
    all: pose proof (property_closed h current key Hclosed) as Hnext.
    all: destruct (truthy (property h current key)) eqn:Ht; simpl.
    all: try (destruct (IH (property h current key) h Hclosed Hnext)
                as (H1 & H2 & H3 & H4);
              split; [done|]; split; [done|]; split; [lia|]; done).
    all: assert (value_closed (h ++ [∅]) (VObject (length h))) as Hnew
           by (simpl; rewrite length_app; simpl; lia).
    all: destruct (write_closed current key (VObject (length h)) (h ++ [∅])
                     (heap_closed_new_object h Hclosed) Hnew) as [Hw Hlen].
    all: assert (write current key (VObject (length h)) (h ++ [∅])
                 = (Ret (), (write current key (VObject (length h)) (h ++ [∅])).2))
           as Hwr by (by rewrite Hcurrent).
    all: rewrite Hwr; simpl.
    all: destruct (IH (VObject (length h)) _ Hw) as (H1 & H2 & H3 & H4);
           [simpl; rewrite Hlen, length_app; simpl; lia|].
    all: rewrite Hlen, length_app in H2, H3; simpl in H2, H3.
    all: split; [done|]; split; [lia|]; split; [lia|]; done.
Qed.

(** X8. [set] keeps the heap closed: when the heap is closed and the root
    and the value set point into it, the heap after [set] is closed, in
    every outcome.  It never removes an object and creates at most one per
    intermediate segment. *)
Theorem set_keeps_heap_closed object keyPath v h :
  heap_closed h → value_closed h object → value_closed h v →
  heap_closed (set object keyPath v h).2
  ∧ length h ≤ length (set object keyPath v h).2
  ∧ ∀ s, keyPath = VString s →
         length (set object keyPath v h).2 ≤ length h + (length (split s) - 1).
Proof.
  intros Hclosed Hobj Hv. unfold set.
  destruct (decide (typeof object ≠ TObject)) as [Hty|Hty].
  { simpl. split; [done|]. split; [done|]. intros; lia. }
  destruct keyPath as [| |b|n|s|l];
    try (simpl; split; [done|]; split; [done|]; intros; lia).
  simpl. unfold set_from, mbind, comp_bind.
  destruct (set_loop_closed (removelast (split s)) object h Hclosed Hobj)
    as (Hc & Hle & Hub & Hcur).
  assert (length (removelast (split s)) = length (split s) - 1) as Hlen.
  { pose proof (app_removelast_last EmptyString (split_nonempty s)) as Hs.
    apply (f_equal length) in Hs. rewrite length_app in Hs. simpl in Hs. lia. }
  destruct (set_loop object (removelast (split s)) h) as [[c|e] h1]; simpl in *.
  - destruct (write_closed c (List.last (split s) EmptyString) v h1 Hc)
      as [Hw Hwl].
    { by apply (value_closed_mono h). }
    split; [done|]. rewrite Hwl. split; [done|].
    intros s' Hs. injection Hs as <-. lia.
  - split; [done|]. split; [done|]. intros s' Hs. injection Hs as <-. lia.
Qed.

Lemma set_keeps_heap_closed_witness :
  heap_closed (set (VObject 0) (VString "a.b.c") (VObject 1) sparse_heap).2.
Proof.
  apply (set_keeps_heap_closed (VObject 0) (VString "a.b.c") (VObject 1)
           sparse_heap).
  - exact sparse_heap_closed.
  - simpl. lia.
  - simpl. lia.
Defined.

(** ** Further properties of the adapter *)

Section adapter_extras.
Context {W : Type} `{!FsExtra W}.
Implicit Types st : state W.




(** X10. [save] on an adapter that holds data never throws: it calls
    [fse.writeJSONSync] once with the adapter's file and data, and when that
    call fails it logs one message and returns.  Heap, adapters and cache
    are left as they were. *)
Theorem save_is_best_effort st this a :
  adapters st !! this = Some a → data a ≠ VNull →
  ∃ st',
    save this st = (Ret (), st')
    ∧ objects st' = objects st ∧ adapters st' = adapters st
    ∧ cache st' = cache st
    ∧ write_calls st' = write_calls st ++ [(storageFile a, data a)]
    ∧ world st'
      = (writeJSONSync (world st) (storageFile a) (objects st) (data a)).1
    ∧ console st'
      = if (writeJSONSync (world st) (storageFile a) (objects st) (data a)).2
        then console st
        else console st
             ++ ["Failed to save data to " +:+ storageFile a +:+ "!"].
Proof.
  intros Ha Hd. unfold save, mbind, comp_bind, this_data.
  rewrite Ha. rewrite decide_False by done.
  unfold try_catch, mbind, comp_bind, this_data, this_storageFile. rewrite Ha.
  simpl. rewrite Ha. unfold fse_writeJSONSync.
  destruct (writeJSONSync (world st) (storageFile a) (objects st) (data a))
    as [w []]; simpl; rewrite ?Ha; simpl; eexists; (split; [reflexivity|]);
    simpl; done.
Qed.

(** X11. A load that finds and parses the file stores the parsed value as
    the adapter's data, logs nothing and writes nothing; from then on
    [get(path)] is the path accessor [get] on the parsed document. *)
Theorem load_stores_parsed_document st this a d h' :
  adapters st !! this = Some a →
  existsSync (world st) (storageFile a) = true →
  readJSONSync (world st) (storageFile a) (objects st) = Some (d, h') →
  ∃ st',
    load this st = (Ret (), st')
    ∧ adapters st'
      = <[this := {| storageFile := storageFile a; data := d |}]> (adapters st)
    ∧ objects st' = h'
    ∧ console st' = console st ∧ world st' = world st
    ∧ write_calls st' = write_calls st
    ∧ (d ≠ VNull → ∀ s,
         adapter_get this (VString s) st' = ((get d (VString s) h').1, st')).
Proof.
  intros Ha Hex Hread.
  unfold load, mbind, comp_bind, this_storageFile, fse_existsSync.
  rewrite Ha, Hex. simpl. unfold try_catch, mbind, comp_bind, fse_readJSONSync.
  rewrite Ha, Hread. simpl. unfold set_this_data. simpl. rewrite Ha.
  eexists. split; [reflexivity|]. simpl.
  split; [done|]. split; [done|]. split; [done|]. split; [done|].
  split; [done|]. intros Hd s.
  match goal with |- adapter_get _ _ ?s' = _ => set (st' := s') end.
  assert (adapters st' !! this
          = Some {| storageFile := storageFile a; data := d |}) as Ha'.
  { simpl. apply list_lookup_insert_eq. by eapply lookup_lt_Some. }
  by rewrite (adapter_get_eval st' this _ s Ha').
Qed.

(** X12. A file whose JSON text is [null] loads without any error or log,
    and yet leaves the adapter unloaded: [null] is also the mark of a
    failed load, so [get], [set] and [save] throw "not loaded". *)
Theorem null_document_counts_as_unloaded st this a h' :
  adapters st !! this = Some a →
  existsSync (world st) (storageFile a) = true →
  readJSONSync (world st) (storageFile a) (objects st) = Some (VNull, h') →
  ∃ st',
    load this st = (Ret (), st')
    ∧ console st' = console st
    ∧ ∀ key v,
        adapter_get this key st'
        = (Throw (Error "Data has yet to be loaded"), st')
        ∧ adapter_set this key v st'
          = (Throw (Error "Data has yet to be loaded"), st')
        ∧ save this st' = (Throw (Error "Data has yet to be loaded"), st').
Proof.
  intros Ha Hex Hread.
  unfold load, mbind, comp_bind, this_storageFile, fse_existsSync.
  rewrite Ha, Hex. simpl. unfold try_catch, mbind, comp_bind, fse_readJSONSync.
  rewrite Ha, Hread. simpl. unfold set_this_data. simpl. rewrite Ha.
  eexists. split; [reflexivity|]. simpl. split; [done|].
  intros key v.
  apply (unloaded_calls_throw _ this {| storageFile := storageFile a; data := VNull |});
    [|done].
  simpl. apply list_lookup_insert_eq. by eapply lookup_lt_Some.
Qed.

End adapter_extras.


Lemma save_is_best_effort_witness :
  ∃ st',
    save 0 (one_adapter flat_heap) = (Ret (), st')
    ∧ write_calls st' = [("cfg/x.json", VObject 0)].
Proof.
  destruct (save_is_best_effort (one_adapter flat_heap) 0
              {| storageFile := "cfg/x.json"; data := VObject 0 |})
    as (st' & Hsave & _ & _ & _ & Hw & _).
  - reflexivity.
  - discriminate.
  - exists st'. split; [exact Hsave|exact Hw].
Defined.

Lemma load_stores_parsed_document_witness :
  ∃ st',
    load 0 fresh_adapter = (Ret (), st')
    ∧ adapter_get 0 (VString "a") st' = (Ret (VNumber 1), st').
Proof.
  destruct (load_stores_parsed_document fresh_adapter 0
              {| storageFile := "cfg/x.json"; data := VNull |}
              (VObject 0) [ {["a" := VNumber 1]} ])
    as (st' & Hload & _ & _ & _ & _ & _ & Hget).
  - reflexivity.
  - vm_compute. reflexivity.
  - vm_compute. reflexivity.
  - exists st'. split; [exact Hload|].
    rewrite Hget by discriminate. vm_compute. reflexivity.
Defined.

Lemma null_document_counts_as_unloaded_witness :
  ∃ st',
    load 0 LiteralDisk.null_document = (Ret (), st')
    ∧ console st' = []
    ∧ adapter_get 0 (VString "a") st'
      = (Throw (Error "Data has yet to be loaded"), st').
Proof.
  destruct (null_document_counts_as_unloaded LiteralDisk.null_document 0
              {| storageFile := "cfg/n.json"; data := VNull |} [])
    as (st' & Hload & Hlog & Hcalls).
  - reflexivity.
  - vm_compute. reflexivity.
  - vm_compute. reflexivity.
  - exists st'. split; [exact Hload|]. split; [exact Hlog|].
    exact (proj1 (Hcalls (VString "a") VUndefined)).
Defined.


(** ** Further properties of the registry *)

Lemma string_length_app s1 s2 :
  String.length (s1 +:+ s2) = String.length s1 + String.length s2.
Proof.
  induction s1 as [|c s1 IH]; [done|].
  change (String c s1 +:+ s2) with (String c (s1 +:+ s2)). simpl. by rewrite IH.
Qed.

Lemma substring_all s : String.substring 0 (String.length s) s = s.
Proof. induction s as [|c s IH]; simpl; [done|]. by rewrite IH. Qed.

Lemma substring_app_r s1 s2 :
  String.substring (String.length s1) (String.length s2) (s1 +:+ s2) = s2.
Proof.
  induction s1 as [|c s1 IH]; [apply substring_all|].
  change (String c s1 +:+ s2) with (String c (s1 +:+ s2)). simpl. exact IH.
Qed.

Lemma endsWith_app s suffix : endsWith (s +:+ suffix) suffix = true.
Proof.
  unfold endsWith. apply bool_decide_eq_true. rewrite string_length_app.
  split; [lia|].
  replace (String.length s + String.length suffix - String.length suffix)
    with (String.length s) by lia.
  apply substring_app_r.
Qed.

Section registry_extras.
Context {W : Type} `{!FsExtra W} `{!PathModule}.
Implicit Types st : state W.


(** X15. The location of a new adapter always ends in [.json]: it is the
    resolved path itself when that already ends in [.json], and the
    resolved path followed by [.json] otherwise. *)
Theorem new_adapter_location_ends_in_json st name :
  cache_lookup (cache st) name = None →
  ∃ st1 ad,
    factory name st = (Ret (length (adapters st)), st1)
    ∧ adapters st1 !! length (adapters st) = Some ad
    ∧ endsWith (storageFile ad) ".json" = true
    ∧ storageFile ad
      = if endsWith (path_resolve (configsFolder st) name) ".json"
        then path_resolve (configsFolder st) name
        else path_resolve (configsFolder st) name +:+ ".json".
Proof.
  intros Hc. destruct (factory_miss st name Hc) as (st1 & d & Hf & _ & Hads & _).
  exists st1, {| storageFile := real_path (configsFolder st) name; data := d |}.
  split; [done|]. split.
  { rewrite Hads, lookup_app_r by done. by rewrite Nat.sub_diag. }
  simpl. unfold real_path.
  destruct (endsWith (path_resolve (configsFolder st) name) ".json") eqn:He;
    simpl; split; [done|done|apply endsWith_app|done].
Qed.

(** X16. The cache is keyed by the name given, not by the location: two
    different new names give two adapters, one after the other, each on the
    location resolved from its own name, also when the two locations are
    the same. *)
Theorem distinct_names_give_distinct_adapters st name1 name2 :
  cache_lookup (cache st) name1 = None →
  cache_lookup (cache st) name2 = None →
  name1 ≠ name2 →
  ∃ st1 st2 d1 d2,
    factory name1 st = (Ret (length (adapters st)), st1)
    ∧ factory name2 st1 = (Ret (S (length (adapters st))), st2)
    ∧ adapters st2
      = adapters st
        ++ [ {| storageFile := real_path (configsFolder st) name1; data := d1 |};
             {| storageFile := real_path (configsFolder st) name2; data := d2 |} ].
Proof.
  intros Hc1 Hc2 Hne.
  destruct (factory_miss st name1 Hc1) as (st1 & d1 & Hf1 & Hcache1 & Hads1 & Hfo1).
  assert (cache_lookup (cache st1) name2 = None) as Hc2'.
  { rewrite Hcache1, cache_lookup_app, Hc2. simpl. by rewrite decide_False. }
  destruct (factory_miss st1 name2 Hc2') as (st2 & d2 & Hf2 & _ & Hads2 & _).
  exists st1, st2, d1, d2. split; [done|]. split.
  - rewrite Hf2, Hads1, length_app. simpl. by rewrite Nat.add_1_r.
  - rewrite Hads2, Hads1, Hfo1, <- (assoc_L (++)). done.
Qed.
End registry_extras.

Lemma new_adapter_location_ends_in_json_witness :
  ∃ st1,
    factory "x.json" (initial_state "cfg" MemDisk.empty_disk) = (Ret 0, st1)
    ∧ adapter_files st1 = ["cfg/x.json"].
Proof.
  destruct (new_adapter_location_ends_in_json
              (initial_state "cfg" MemDisk.empty_disk) "x.json")
    as (st1 & ad & Hf & Had & _ & Hfile).
  - reflexivity.
  - exists st1. split; [exact Hf|]. vm_compute in Hf.
    injection Hf as <-. vm_compute. reflexivity.
Defined.

Lemma distinct_names_give_distinct_adapters_witness :
  ∃ st2,
    (factory "x.json" (factory "x" (initial_state "cfg" MemDisk.empty_disk)).2)
    = (Ret 1, st2)
    ∧ adapter_files st2 = ["cfg/x.json"; "cfg/x.json"].
Proof.
  destruct (distinct_names_give_distinct_adapters
              (initial_state "cfg" MemDisk.empty_disk) "x" "x.json")
    as (st1 & st2 & d1 & d2 & Hf1 & Hf2 & Hads).
  - reflexivity.
  - reflexivity.
  - discriminate.
  - exists st2. rewrite Hf1. split; [exact Hf2|].
    unfold adapter_files. rewrite Hads. vm_compute. reflexivity.
Defined.

(** *** What no call changes *)

Section preservation.
Context {W : Type} `{!FsExtra W} `{!PathModule}.
Implicit Types st : state W.

Lemma preserves_ret {X A} (obs : state W → X) (a : A) :
  preserves obs (mret a : Comp (state W) A).
Proof. done. Qed.

Lemma preserves_throw {X A} (obs : state W → X) e :
  preserves obs (throw e : Comp (state W) A).
Proof. done. Qed.

Lemma preserves_gets {X A} (obs : state W → X) (f : state W → A) :
  preserves obs (gets f).
Proof. done. Qed.

Lemma preserves_bind {X A B} (obs : state W → X)
    (m : Comp (state W) A) (f : A → Comp (state W) B) :
  preserves obs m → (∀ a, preserves obs (f a)) → preserves obs (m ≫= f).
Proof.
  intros Hm Hf st. unfold mbind, comp_bind. specialize (Hm st).
  destruct (m st) as [[a|e] st1]; simpl in *; [|done]. by rewrite Hf.
Qed.

Lemma preserves_try_catch {X A} (obs : state W → X)
    (m : Comp (state W) A) handler :
  preserves obs m → (∀ e, preserves obs (handler e)) →
  preserves obs (try_catch m handler).
Proof.
  intros Hm Hf st. unfold try_catch. specialize (Hm st).
  destruct (m st) as [[a|e] st1]; simpl in *; [done|]. by rewrite Hf.
Qed.

Lemma preserves_if {X A} (obs : state W → X) (b : bool)
    (m1 m2 : Comp (state W) A) :
  preserves obs m1 → preserves obs m2 → preserves obs (if b then m1 else m2).
Proof. by destruct b. Qed.

Lemma preserves_decide {X A} (obs : state W → X) P `{!Decision P}
    (m1 m2 : Comp (state W) A) :
  preserves obs m1 → preserves obs m2 →
  preserves obs (if decide P then m1 else m2).
Proof. by case_decide. Qed.

Lemma preserves_for_each {X A} (obs : state W → X)
    (body : A → Comp (state W) unit) l :
  (∀ x, preserves obs (body x)) → preserves obs (for_each body l).
Proof.
  intros Hb. induction l as [|x l IH]; simpl; [done|].
  apply preserves_bind; [done|]. by intros _.
Qed.

Lemma files_on_heap {A} (m : Comp heap A) :
  preserves adapter_files (on_heap (W:=W) m).
Proof. intros st. unfold on_heap. by destruct (m (objects st)). Qed.

Lemma files_console_error msg :
  preserves adapter_files (console_error (W:=W) msg).
Proof. done. Qed.

Lemma files_this_data this : preserves adapter_files (this_data (W:=W) this).
Proof. intros st. unfold this_data. by destruct (adapters st !! this). Qed.

Lemma files_this_storageFile this :
  preserves adapter_files (this_storageFile (W:=W) this).
Proof. intros st. unfold this_storageFile. by destruct (adapters st !! this). Qed.

Lemma files_set_this_data this d :
  preserves adapter_files (set_this_data (W:=W) this d).
Proof.
  intros st. unfold set_this_data.
  destruct (adapters st !! this) as [a|] eqn:Ha; [|done].
  unfold adapter_files. simpl. rewrite list_fmap_insert. simpl.
  apply list_insert_id. by rewrite list_lookup_fmap, Ha.
Qed.

Lemma files_existsSync file : preserves adapter_files (fse_existsSync file).
Proof. done. Qed.

Lemma files_readJSONSync file : preserves adapter_files (fse_readJSONSync file).
Proof.
  intros st. unfold fse_readJSONSync.
  by destruct (readJSONSync (world st) file (objects st)) as [[??]|].
Qed.

Lemma files_writeJSONSync file d :
  preserves adapter_files (fse_writeJSONSync file d).
Proof.
  intros st. unfold fse_writeJSONSync.
  by destruct (writeJSONSync (world st) file (objects st) d).
Qed.
End preservation.

Create HintDb files.
#[export] Hint Resolve preserves_ret preserves_throw preserves_gets
  files_on_heap files_console_error files_this_data files_this_storageFile
  files_set_this_data files_existsSync files_readJSONSync files_writeJSONSync
  : files.

Ltac files :=
  repeat first
    [ apply preserves_bind; [|intros ?]
    | apply preserves_try_catch; [|intros ?]
    | apply preserves_if
    | apply preserves_decide
    | match goal with
      | |- preserves _ (match ?x with _ => _ end) => destruct x
      end
    | solve [auto with files] ].

Section registry_reachable.
Context {W : Type} `{!FsExtra W} `{!PathModule}.
Implicit Types st : state W.

Lemma files_load this : preserves adapter_files (load (W:=W) this).
Proof. unfold load. files. Qed.

Lemma files_save this : preserves adapter_files (save (W:=W) this).
Proof. unfold save. files. Qed.

Lemma files_adapter_get this key :
  preserves adapter_files (adapter_get (W:=W) this key).
Proof. unfold adapter_get. files. Qed.

Lemma files_adapter_set this key v :
  preserves adapter_files (adapter_set (W:=W) this key v).
Proof. unfold adapter_set. files; apply files_adapter_get. Qed.

Lemma files_saveAll : preserves adapter_files (saveAll (W:=W)).
Proof.
  unfold saveAll. files. apply preserves_for_each. intros key.
  unfold save_cached. files.
Qed.

Lemma cache_files_kept {A} (m : Comp (state W) A) st :
  keeps_registry m → preserves adapter_files m →
  cache_files_resolved st → cache_files_resolved (m st).2.
Proof.
  intros Hk Hf Hinv. unfold cache_files_resolved in *.
  destruct (Hk st) as (-> & _ & ->). by rewrite Hf.
Qed.

Lemma cache_files_factory st name :
  cache_files_resolved st → cache_files_resolved (factory name st).2.
Proof.
  intros Hinv. destruct (cache_lookup (cache st) name) as [a|] eqn:Hc.
  - by rewrite (factory_hit st name a Hc).
  - destruct (factory_miss st name Hc) as (st1 & d & -> & Hcache & Hads & Hfo).
    simpl. unfold cache_files_resolved, adapter_files in *.
    rewrite Hcache, Hads, Hfo, fmap_app. apply Forall_app. split.
    + eapply Forall_impl; [exact Hinv|]. intros entry He.
      by apply lookup_app_l_Some.
    + apply Forall_singleton. simpl.
      rewrite lookup_app_r by (by rewrite length_fmap).
      by rewrite length_fmap, Nat.sub_diag.
Qed.

Lemma cache_files_run_call st c :
  cache_files_resolved st → cache_files_resolved (run_call st c).
Proof.
  intros Hinv. destruct c; simpl.
  - by apply cache_files_factory.
  - by apply cache_files_kept; [apply keeps_adapter_get|apply files_adapter_get|].
  - by apply cache_files_kept; [apply keeps_adapter_set|apply files_adapter_set|].
  - by apply cache_files_kept; [apply keeps_save|apply files_save|].
  - by apply cache_files_kept; [apply keeps_load|apply files_load|].
  - by apply cache_files_kept; [apply keeps_saveAll|apply files_saveAll|].
Qed.

Lemma folder_run_call st c : configsFolder (run_call st c) = configsFolder st.
Proof.
  destruct c as [name| | | | |]; simpl.
  - destruct (cache_lookup (cache st) name) as [a|] eqn:Hc.
    + by rewrite (factory_hit st name a Hc).
    + destruct (factory_miss st name Hc) as (st1 & d & -> & _ & _ & Hfo).
      exact Hfo.
  - by destruct (keeps_adapter_get this key st) as (_ & _ & ->).
  - by destruct (keeps_adapter_set this key v st) as (_ & _ & ->).
  - by destruct (keeps_save this st) as (_ & _ & ->).
  - by destruct (keeps_load this st) as (_ & _ & ->).
  - by destruct (keeps_saveAll st) as (_ & _ & ->).
Qed.

(** X17. Whatever calls are made on a new registry, the cache lists the
    adapters created so far, in the order of their creation and under
    distinct names, and every adapter still sits on the location resolved
    from the name it was created for: no call changes the file of an
    adapter, removes a cache entry or puts an adapter under two names. *)
Theorem registry_invariant folder (w : W) calls :
  let st := run_calls (initial_state folder w) calls in
  (cache st).*2 = seq 0 (length (adapters st))
  ∧ NoDup (cache st).*1
  ∧ configsFolder st = folder
  ∧ Forall (λ entry, adapter_files st !! entry.2
                     = Some (real_path folder entry.1)) (cache st).
Proof.
  intros st.
  assert (∀ st0, (registry_inv st0 ∧ configsFolder st0 = folder
                  ∧ cache_files_resolved st0) →
            registry_inv (run_calls st0 calls)
            ∧ configsFolder (run_calls st0 calls) = folder
            ∧ cache_files_resolved (run_calls st0 calls)) as Hrun.
  { induction calls as [|c calls IH]; intros st0 H0; [done|].
    destruct H0 as (Hinv & Hfolder & Hfiles). apply IH. split; [|split].
    - by apply run_call_inv.
    - by rewrite folder_run_call.
    - by apply cache_files_run_call. }
  destruct (Hrun (initial_state folder w)) as ([Hseq Hnd] & Hfolder & Hfiles).
  { split; [apply initial_inv|]. split; [done|]. by apply Forall_nil. }
  fold st in Hseq, Hnd, Hfolder, Hfiles.
  split; [done|]. split; [done|]. split; [done|].
  unfold cache_files_resolved in Hfiles. by rewrite Hfolder in Hfiles.
Qed.
End registry_reachable.

Section saving.
Context {W : Type} `{!FsExtra W} `{!PathModule}.
Implicit Types st : state W.

Lemma documents_save this : preserves documents (save (W:=W) this).
Proof.
  intros st. unfold save, mbind, comp_bind, this_data.
  destruct (adapters st !! this) as [a|] eqn:Ha; [|done].
  case_decide; [done|].
  unfold try_catch, mbind, comp_bind, this_data, this_storageFile. rewrite Ha.
  simpl. rewrite Ha. unfold fse_writeJSONSync.
  destruct (writeJSONSync (world st) (storageFile a) (objects st) (data a))
    as [w []]; simpl; rewrite ?Ha; done.
Qed.

(** X18. Saving reads the documents and never changes them: after [save]
    and after [saveAll], in every outcome, the heap and the adapters are
    what they were. *)
Theorem saving_changes_no_document st this :
  objects (save this st).2 = objects st
  ∧ adapters (save this st).2 = adapters st
  ∧ objects (saveAll st).2 = objects st
  ∧ adapters (saveAll st).2 = adapters st.
Proof.
  pose proof (documents_save this st) as Hsave.
  assert (preserves documents (saveAll (W:=W))) as HsaveAll.
  { unfold saveAll. apply preserves_bind; [done|]. intros keys.
    apply preserves_for_each. intros key. unfold save_cached.
    apply preserves_bind; [done|]. intros [a|]; [|done].
    apply documents_save. }
  specialize (HsaveAll st). unfold documents in *.
  by injection Hsave as -> ->; injection HsaveAll as -> ->.
Qed.

(** X19. The adapter's [get] changes nothing, whether it returns or
    throws: no document, no adapter, no log, no file. *)
Theorem adapter_get_changes_nothing st this key :
  (adapter_get this key st).2 = st.
Proof.
  unfold adapter_get, mbind, comp_bind, this_data.
  destruct (adapters st !! this) as [a|] eqn:Ha; [|done].
  case_decide; [done|]. simpl. case_decide; [done|]. simpl. rewrite Ha.
  unfold on_heap.
  assert ((get (data a) key (objects st)).2 = objects st) as Hh.
  { unfold get. case_decide; [done|]. destruct key; try done.
    apply get_from_heap. }
  destruct (get (data a) key (objects st)) as [r h']. simpl in *. subst h'.
  by rewrite with_objects_id.
Qed.


End saving.


(** ** Paths and segments *)

Lemma join_dots_cons seg seg' segs :
  join_dots (seg :: seg' :: segs) = seg +:+ "." +:+ join_dots (seg' :: segs).
Proof. done. Qed.

(** X21. A path and its segments determine each other: no segment of a
    split path holds a dot, and joining the segments with dots gives the
    path back, empty segments included. *)
Theorem split_then_join s :
  Forall (λ seg, has_dot seg = false) (split s) ∧ join_dots (split s) = s.
Proof.
  induction s as [|c s [IHd IHj]]; [by split; [repeat constructor|]|].
  destruct (split_cons s) as (seg & segs & Hs).
  change (split (String c s))
    with (if decide (c = "."%char) then EmptyString :: split s
          else match split s with
               | seg :: segs => String c seg :: segs
               | [] => [String c EmptyString]
               end).
  rewrite Hs in *. destruct (decide (c = "."%char)) as [->|Hc].
  - split; [by constructor|]. by rewrite join_dots_cons, IHj.
  - apply Forall_cons in IHd as [Hseg Hsegs]. split.
    + constructor; [|done].
      change (has_dot (String c seg))
        with (bool_decide (c = "."%char) || has_dot seg).
      by rewrite Hseg, bool_decide_eq_false_2.
    + destruct segs as [|seg' segs].
      * change (String c seg = String c s). by rewrite <- IHj.
      * rewrite join_dots_cons. rewrite join_dots_cons in IHj.
        change (String c (seg +:+ "." +:+ join_dots (seg' :: segs)) = String c s).
        by rewrite IHj.
Qed.
